(** * The counter store of [src/stores/count.store.ts]

  The store keeps one JavaScript [number] under [count], a computed
  getter [isEven], and an [actions] object with [increment] and
  [decrement].  It is wrapped in the [persist] middleware under the name
  ["countStore"], with [partialize] keeping only [count].

  JavaScript numbers are IEEE 754 binary64 values.  The counter only ever
  holds integer-valued doubles, so a count is an integer [Z] and the
  rounding of [+] and [-] to 53 significant bits is written out. *)

From Stdlib Require Import ZArith Lia Floats Ascii.
From Stdlib Require Import DecimalString DecimalZ.
From stdpp Require Import base option list strings gmap.

Local Open Scope Z_scope.

(** ** JavaScript numbers restricted to integer values *)

Module Number.

(** Number of significant bits of a binary64 value. *)
Definition prec : Z := 53.

(** [Number.MAX_SAFE_INTEGER + 1]: up to this magnitude every integer is
    a double. *)
Definition two53 : Z := 2 ^ prec.

(** Round an integer to the nearest double, ties to the even significand.
    Below [2^53] in magnitude nothing is lost.  Above, the unit in the
    last place is [2^e] with [e = log2 |z| - 52]; the significand [q] is
    kept or bumped according to the remainder [r].  Overflow to
    [Infinity] (magnitude [2^1024] and above) is not represented. *)
Definition round_double (z : Z) : Z :=
  let a := Z.abs z in
  if a <? two53 then z
  else
    let e := Z.log2 a - (prec - 1) in
    let q := a / 2 ^ e in
    let r := a mod 2 ^ e in
    let half := 2 ^ (e - 1) in
    let m := if (r <? half) || ((r =? half) && Z.even q) then q else q + 1 in
    Z.sgn z * (m * 2 ^ e).

(** [a + b] and [a - b] on integer-valued doubles: the exact result,
    rounded once. *)
Definition add (a b : Z) : Z := round_double (a + b).
Definition sub (a b : Z) : Z := round_double (a - b).

(** [a % b]: the remainder of the truncated division, with the sign of
    the dividend; it is always exact.  A result [-0] is the integer [0],
    and [-0 === 0] holds in JavaScript. *)
Definition rem (a b : Z) : Z := Z.rem a b.

(** [a === b] on numbers. *)
Definition strict_eq (a b : Z) : bool := a =? b.

(** An integer that is a double. *)
Definition representable (z : Z) : Prop := round_double z = z.

(** The range in which [+ 1] and [- 1] are exact on both ends. *)
Definition safe (z : Z) : Prop := - two53 <= z <= two53.

(** *** Link with the binary64 arithmetic of the kernel *)

(** The double nearest to a non-negative integer below [2^63], and its
    opposite for a negative one. *)
Definition to_float (z : Z) : float :=
  if z <? 0 then PrimFloat.opp (PrimFloat.of_uint63 (Uint63.of_Z (- z)))
  else PrimFloat.of_uint63 (Uint63.of_Z z).

(** The integer value of an integer-valued finite double. *)
Definition of_float (f : float) : option Z :=
  match Prim2SF f with
  | S754_zero _ => Some 0
  | S754_finite s m e =>
      let sign := if s then -1 else 1 in
      if 0 <=? e then Some (sign * (Z.pos m * 2 ^ e))
      else if Z.pos m mod 2 ^ (- e) =? 0 then Some (sign * (Z.pos m / 2 ^ (- e)))
      else None
  | _ => None
  end.

End Number.

(** ** The values held by the store *)

(** The functions and the object that the state creator allocates, once per
    store.  Two references are the same exactly when they name the same
    allocation. *)
Inductive ref : Set :=
  | IsEvenFn      (* () => get().count % 2 === 0 *)
  | ActionsObj    (* { increment, decrement } *)
  | IncrementFn   (* () => set((state) => ({ count: state.count + 1 })) *)
  | DecrementFn.  (* () => set((state) => ({ count: state.count - 1 })) *)

(** A property value: [undefined], an integer-valued number, or a reference
    to a function or an object. *)
Inductive value : Set :=
  | VUndefined
  | VNum (n : Z)
  | VRef (r : ref).

#[export] Instance ref_eq_dec : EqDecision ref.
Proof. solve_decision. Defined.

#[export] Instance value_eq_dec : EqDecision value.
Proof. solve_decision. Defined.

(** A plain object: a finite map from property names to values. *)
Abbreviation obj := (gmap string value).

(** [o.k]: reading a property that is not there yields [undefined]. *)
Definition get_prop (o : obj) (k : string) : value :=
  default VUndefined (o !! k).

(** The operand of [+ 1] and [- 1].  [None] stands for a state that does
    not have the shape of [interface CountStore], whose [count] is a
    number; the type checker rules such a state out. *)
Definition as_number (v : value) : option Z :=
  match v with
  | VNum n => Some n
  | _ => None
  end.

(** [Object.assign({}, state, partial)]: the properties of [partial] win,
    every other property of [state] is carried over. *)
Definition assign (state partial : obj) : obj := partial ∪ state.

(** [Object.is] on the values of the model. *)
Definition Object_is (a b : value) : bool := bool_decide (a = b).

(** ** Text of a persisted snapshot *)

Module Json.

Definition dquote : Ascii.ascii := Ascii.ascii_of_nat 34.

(** A property name between double quotes. *)
Definition quoted (k : string) : string :=
  String dquote (k +:+ String dquote "").

(** The text before the number in a snapshot: an opening brace, the quoted
    name [count] and a colon. *)
Definition count_prefix : string := "{" +:+ quoted "count" +:+ ":".

Definition print_int (z : Z) : string := NilZero.string_of_int (Z.to_int z).

(** An integer literal in canonical form: decimal digits, no leading zero,
    a minus sign for a negative number only. *)
Definition parse_int (s : string) : option Z :=
  match NilZero.int_of_string s with
  | Some d =>
      let z := Z.of_int d in
      if decide (print_int z = s) then Some z else None
  | None => None
  end.

Fixpoint strip_prefix (p s : string) : option string :=
  match p with
  | EmptyString => Some s
  | String a p' =>
      match s with
      | EmptyString => None
      | String b s' => if decide (a = b) then strip_prefix p' s' else None
      end
  end.

(** Remove the last character, which must be [c]. *)
Fixpoint strip_last (c : Ascii.ascii) (s : string) : option string :=
  match s with
  | EmptyString => None
  | String a EmptyString => if decide (a = c) then Some EmptyString else None
  | String a s' => String a <$> strip_last c s'
  end.

(** Modelled from the spec: the serialised form of the persisted record,
    an object with the single field [count]; the storage adaptor that
    [persist] writes through is not in the sources.  As with
    [JSON.stringify], a property that holds a function or [undefined] is
    left out of the text. *)
Definition stringify (o : obj) : string :=
  match o !! "count" with
  | Some (VNum n) => count_prefix +:+ print_int n +:+ "}"
  | _ => "{}"
  end.

(** Modelled from the spec: reading the persisted record back; the storage
    adaptor that [persist] reads through is not in the sources.  The text
    of an object with the single field [count], or with no field, is well
    formed, and the number read is the double nearest to the literal, as
    with [JSON.parse].  Any other text is malformed. *)
Definition parse (s : string) : option obj :=
  if decide (s = "{}") then Some ∅
  else
    body ← strip_prefix count_prefix s;
    lit ← strip_last "}"%char body;
    n ← parse_int lit;
    Some {[ "count" := VNum (Number.round_double n) ]}.

End Json.

(** ** The store *)

Module CountStore.

(** The durable medium maps a name to the text stored under it, as
    [localStorage] does. *)
Abbreviation medium := (gmap string string).

(** A store: the current state object, the durable medium, and the writes
    made to the medium so far, oldest first. *)
Record Store : Type := mkStore {
  state : obj;
  storage : medium;
  writes : list (string * string)
}.

(** [get()]: the current state object. *)
Definition get (w : Store) : obj := state w.

(** [name: 'countStore'] of the persist options. *)
Definition name : string := "countStore".

(** [partialize: (state) => ({ count: state.count })]. *)
Definition partialize (state : obj) : obj :=
  {[ "count" := get_prop state "count" ]}.

(** Modelled from the spec: the [set] of the state container created by
    [create], which the sources import and do not contain.  The updater is
    applied to the current state and the partial object it returns is merged
    over it; the medium is not touched. *)
Definition setState (updater : obj -> option obj) (w : Store) : option Store :=
  partial ← updater (get w);
  Some (mkStore (assign (state w) partial) (storage w) (writes w)).

(** Modelled from the spec: the write of the [persist] middleware, which the
    sources import and do not contain.  The snapshot [partialize] selects
    from the current state is serialised and written under [name],
    overwriting what was there. *)
Definition setItem (w : Store) : Store :=
  let text := Json.stringify (partialize (get w)) in
  mkStore (state w) (<[ name := text ]> (storage w)) (writes w ++ [(name, text)]).

(** Modelled from the spec: the [set] that [persist] hands to the state
    creator; every update is followed by one write. *)
Definition set (updater : obj -> option obj) (w : Store) : option Store :=
  setItem <$> setState updater w.

(** [(state) => ({ count: state.count + 1 })]. *)
Definition increment_updater (state : obj) : option obj :=
  n ← as_number (get_prop state "count");
  Some {[ "count" := VNum (Number.add n 1) ]}.

(** [(state) => ({ count: state.count - 1 })]. *)
Definition decrement_updater (state : obj) : option obj :=
  n ← as_number (get_prop state "count");
  Some {[ "count" := VNum (Number.sub n 1) ]}.

(** [increment: () => set((state) => ({ count: state.count + 1 }))]. *)
Definition increment (w : Store) : option Store := set increment_updater w.

(** [decrement: () => set((state) => ({ count: state.count - 1 }))]. *)
Definition decrement (w : Store) : option Store := set decrement_updater w.

(** [isEven: () => get().count % 2 === 0].  The call reads the current
    state and hands the store back as it was.  When [count] is not a number
    the remainder is [NaN] and the comparison is false. *)
Definition isEven (w : Store) : Store * bool :=
  (w, match get_prop (get w) "count" with
      | VNum n => Number.strict_eq (Number.rem n 2) 0
      | _ => false
      end).

(** The object under [actions]. *)
Definition actions_object : obj :=
  {[ "increment" := VRef IncrementFn; "decrement" := VRef DecrementFn ]}.

(** The state the creator returns: [count: 0], [isEven] and [actions]. *)
Definition initial_state : obj :=
  {[ "count" := VNum 0; "isEven" := VRef IsEvenFn; "actions" := VRef ActionsObj ]}.

(** Modelled from the spec: the restore step of [persist] at construction.
    The record under [name] is read; when it is there and parses, the
    snapshot is laid over the initial state, otherwise the initial state
    stands. *)
Definition hydrate (m : medium) : obj :=
  match m !! name ≫= Json.parse with
  | Some snapshot => assign initial_state snapshot
  | None => initial_state
  end.

(** Modelled from the spec: [create(persist(...))], a fresh store on a given
    medium; the list of writes of the new store starts empty. *)
Definition create (m : medium) : Store := mkStore (hydrate m) m [].

(** A process restart: a fresh store on the medium the old one leaves. *)
Definition restart (w : Store) : Store := create (storage w).

(** The two commands of the write interface. *)
Inductive action : Set := Increment | Decrement.

Definition dispatch (a : action) (w : Store) : option Store :=
  match a with
  | Increment => increment w
  | Decrement => decrement w
  end.

(** A sequence of calls, first call first. *)
Fixpoint run (l : list action) (w : Store) : option Store :=
  match l with
  | [] => Some w
  | a :: l' => dispatch a w ≫= run l'
  end.

(** The [+1] or [-1] a call stands for, and the net sum of a sequence. *)
Definition step (a : action) : Z :=
  match a with
  | Increment => 1
  | Decrement => -1
  end.

Definition net_sum (l : list action) : Z := foldr (fun a acc => step a + acc) 0 l.

(** The number under [count], when there is one. *)
Definition count (w : Store) : option Z := as_number (get_prop (state w) "count").

(** The selectors of the custom hooks. *)
Definition useCount (w : Store) : value := get_prop (state w) "count".
Definition useIsEven (w : Store) : bool := snd (isEven w).
Definition useCountActions (w : Store) : value := get_prop (state w) "actions".

(** The object a reference to an object points to. *)
Definition deref (r : ref) : option obj :=
  match r with
  | ActionsObj => Some actions_object
  | _ => None
  end.

(** Calling one of the two action functions. *)
Definition call (r : ref) (w : Store) : option Store :=
  match r with
  | IncrementFn => increment w
  | DecrementFn => decrement w
  | _ => None
  end.

(** A button of [App.tsx]: the handler is the method that [useCountActions]
    yields under the given name, [const { increment, decrement } =
    useCountActions()]. *)
Definition click (method : string) (w : Store) : option Store :=
  match useCountActions w with
  | VRef r =>
      actions ← deref r;
      match get_prop actions method with
      | VRef f => call f w
      | _ => None
      end
  | _ => None
  end.

(** A component that selects a value is rendered again after a change of
    state exactly when [Object.is] tells the old and the new selection
    apart. *)
Definition renders_again (selector : Store -> value) (w w' : Store) : bool :=
  negb (Object_is (selector w) (selector w')).

End CountStore.

(** ** Notions used to state the properties *)

Import CountStore.

(** The text of the snapshot of a store whose count is [n]. *)
Definition snapshot_text (n : Z) : string :=
  Json.count_prefix +:+ Json.print_int n +:+ "}".

(** The store left by an action that sets the count to [n]: the state with
    [count] replaced, the medium with the snapshot of [n] under [name], and
    one more entry in the list of writes. *)
Definition updated (n : Z) (w : Store) : Store :=
  mkStore (<[ "count" := VNum n ]> (state w))
          (<[ name := snapshot_text n ]> (storage w))
          (writes w ++ [(name, snapshot_text n)]).

(** The count an action computes from the count [n]. *)
Definition next_count (a : action) (n : Z) : Z :=
  match a with
  | Increment => Number.add n 1
  | Decrement => Number.sub n 1
  end.

(** The stores a program can hold: one built by [create] on some medium,
    and any store an action leaves. *)
Inductive reachable : Store -> Prop :=
  | reachable_create (m : medium) : reachable (create m)
  | reachable_dispatch a w w' :
      reachable w -> dispatch a w = Some w' -> reachable w'.

(** A state of the shape of [interface CountStore]: a double under [count],
    and the function and the object of the creator under [isEven] and
    [actions]. *)
Definition well_formed (w : Store) : Prop :=
  (exists n, count w = Some n /\ Number.representable n) /\
  state w !! "isEven" = Some (VRef IsEvenFn) /\
  state w !! "actions" = Some (VRef ActionsObj).

(** The running count of a sequence of calls started at [c] never leaves
    the range from [-2^53] to [2^53]. *)
Fixpoint stays_safe (c : Z) (l : list action) : Prop :=
  match l with
  | [] => True
  | a :: l' => Number.safe (c + step a) /\ stays_safe (c + step a) l'
  end.

(** [2^53 + 1] calls of [increment]. *)
Definition long_run : list action :=
  repeat Increment (Z.to_nat Number.two53) ++ [Increment].

(** A store on an empty medium, one restored with the count [2^53], and one
    whose count is [5] and that has written nothing yet. *)
Definition fresh : Store := create ∅.
Definition at_two53 : Store := create {[ name := snapshot_text Number.two53 ]}.
Definition at_five : Store := mkStore (<[ "count" := VNum 5 ]> initial_state) ∅ [].

(** ** Facts about numbers *)

Section NumberFacts.

Import Number.

Lemma round_double_small z : Z.abs z < two53 -> round_double z = z.
Proof.
  intros H. unfold round_double.
  destruct (Z.ltb_spec (Z.abs z) two53); [reflexivity | lia].
Qed.

Lemma round_double_two53 : round_double two53 = two53.
Proof. reflexivity. Qed.

Lemma round_double_neg_two53 : round_double (- two53) = - two53.
Proof. reflexivity. Qed.

Lemma safe_representable z : safe z -> representable z.
Proof.
  unfold safe, representable. intros [Hlo Hhi].
  destruct (Z.eq_dec z two53) as [-> | Hne1]; [apply round_double_two53 |].
  destruct (Z.eq_dec z (- two53)) as [-> | Hne2]; [apply round_double_neg_two53 |].
  apply round_double_small. lia.
Qed.

(** Adding one is exact from [-2^53] up to [2^53 - 1]. *)
Lemma add_one_exact n : - two53 <= n < two53 -> add n 1 = n + 1.
Proof. intros H. apply safe_representable. unfold safe. lia. Qed.

(** Subtracting one is exact from [-2^53 + 1] up to [2^53]. *)
Lemma sub_one_exact n : - two53 < n <= two53 -> sub n 1 = n - 1.
Proof. intros H. apply safe_representable. unfold safe. lia. Qed.

(** At [2^53] the sum [2^53 + 1] is a tie between [2^53] and [2^53 + 2]
    and rounds back to [2^53]. *)
Lemma add_one_saturates : add two53 1 = two53.
Proof. reflexivity. Qed.

Lemma sub_one_saturates : sub (- two53) 1 = - two53.
Proof. reflexivity. Qed.

Lemma add_one_safe n : safe n -> safe (add n 1).
Proof.
  unfold safe. intros H.
  destruct (Z.eq_dec n two53) as [-> | Hne].
  - rewrite add_one_saturates. lia.
  - rewrite add_one_exact by lia. lia.
Qed.

Lemma sub_one_safe n : safe n -> safe (sub n 1).
Proof.
  unfold safe. intros H.
  destruct (Z.eq_dec n (- two53)) as [-> | Hne].
  - rewrite sub_one_saturates. lia.
  - rewrite sub_one_exact by lia. lia.
Qed.

(** The parity test [n % 2 === 0] agrees with evenness of [n], also for
    negative [n], where [%] yields [-1] or [-0]. *)
Lemma rem2_even n : strict_eq (rem n 2) 0 = Z.even n.
Proof.
  unfold strict_eq, rem.
  rewrite Zeven_mod.
  destruct (Z.eqb_spec (Z.rem n 2) 0) as [H | H];
    destruct (Z.eqb_spec (n mod 2) 0) as [H' | H']; try reflexivity; exfalso.
  - apply H'. apply Z.mod_divide; [lia |].
    apply Z.rem_divide in H; [assumption | lia].
  - apply H. apply Z.rem_divide; [lia |].
    apply Z.mod_divide in H'; [assumption | lia].
Qed.

(** The rounding above computes what the binary64 addition computes. *)
Example add_agrees_at_two53 :
  of_float (PrimFloat.add (to_float two53) (to_float 1)) = Some (add two53 1).
Proof. vm_compute. reflexivity. Qed.

Example add_agrees_past_two53 :
  of_float (PrimFloat.add (to_float (two53 + 2)) (to_float 1))
  = Some (add (two53 + 2) 1).
Proof. vm_compute. reflexivity. Qed.

Example sub_agrees_at_neg_two53 :
  of_float (PrimFloat.sub (to_float (- two53)) (to_float 1))
  = Some (sub (- two53) 1).
Proof. vm_compute. reflexivity. Qed.

Example add_agrees_small :
  of_float (PrimFloat.add (to_float 41) (to_float 1)) = Some (add 41 1).
Proof. vm_compute. reflexivity. Qed.


Lemma twoprec_pos : 0 < two53.
Proof. reflexivity. Qed.

(** Above [2^53] the significand of the rounded value has 53 bits or is [2^53]. *)
Lemma round_double_large z :
  two53 <= Z.abs z ->
  exists e m, 1 <= e /\ 2 ^ (prec - 1) <= m <= two53 /\
    round_double z = Z.sgn z * (m * 2 ^ e).
Proof.
  intros Hz. unfold round_double.
  destruct (Z.ltb_spec (Z.abs z) two53) as [Hlt | _]; [lia |].
  set (a := Z.abs z) in *.
  assert (Ha : 0 < a) by (pose proof twoprec_pos; lia).
  pose proof (Z.log2_spec a Ha) as [Hlo Hhi].
  assert (HL : prec <= Z.log2 a).
  { apply Z.log2_le_pow2; [lia | exact Hz]. }
  set (e := Z.log2 a - (prec - 1)).
  assert (He : 1 <= e) by (unfold e, prec in *; lia).
  assert (Hpe : 0 < 2 ^ e) by (apply Z.pow_pos_nonneg; lia).
  assert (Hsplit : 2 ^ Z.log2 a = 2 ^ (prec - 1) * 2 ^ e).
  { rewrite <- Z.pow_add_r by (unfold prec; lia). f_equal. unfold e. lia. }
  assert (Hsplit' : 2 ^ Z.succ (Z.log2 a) = two53 * 2 ^ e).
  { unfold two53. rewrite <- Z.pow_add_r by (unfold prec; lia). f_equal. unfold e. lia. }
  set (q := a / 2 ^ e).
  assert (Hq : 2 ^ (prec - 1) <= q < two53).
  { unfold q. split.
    - apply Z.div_le_lower_bound; [lia |]. rewrite Z.mul_comm. lia.
    - apply Z.div_lt_upper_bound; [lia |]. rewrite Z.mul_comm. lia. }
  exists e.
  destruct ((a mod 2 ^ e <? 2 ^ (e - 1)) || ((a mod 2 ^ e =? 2 ^ (e - 1)) && Z.even q)).
  - exists q. repeat split; try lia.
  - exists (q + 1). repeat split; try lia.
Qed.

Lemma round_double_idem z : round_double (round_double z) = round_double z.
Proof.
  destruct (Z.lt_ge_cases (Z.abs z) two53) as [Hs | Hl].
  - rewrite (round_double_small z Hs). apply round_double_small. exact Hs.
  - destruct (round_double_large z Hl) as (e & m & He & Hm & ->).
    assert (Hz : z <> 0) by (pose proof twoprec_pos; lia).
    assert (Hpe : 0 < 2 ^ e) by (apply Z.pow_pos_nonneg; lia).
    assert (Hp52 : 0 < 2 ^ (prec - 1)) by reflexivity.
    set (y := Z.sgn z * (m * 2 ^ e)).
    assert (Hsg : Z.sgn y = Z.sgn z).
    { unfold y. rewrite Z.sgn_mul. rewrite (Z.sgn_pos (m * 2 ^ e)) by nia.
      destruct z; simpl; try reflexivity. }
    assert (Hab : Z.abs y = m * 2 ^ e).
    { unfold y. rewrite Z.abs_mul. rewrite (Z.abs_eq (m * 2 ^ e)) by nia.
      destruct z; simpl; try lia. }
    unfold round_double. rewrite Hsg, Hab.
    assert (H2e : 2 <= 2 ^ e).
    { change 2 with (2 ^ 1) at 1. apply Z.pow_le_mono_r; lia. }
    destruct (Z.ltb_spec (m * 2 ^ e) two53) as [Hlt | _].
    { exfalso. assert (two53 = 2 ^ (prec - 1) * 2) by reflexivity. nia. }
    assert (Hhalf : 0 < 2 ^ (e - 1)) by (apply Z.pow_pos_nonneg; lia).
    destruct (Z.eq_dec m two53) as [-> | Hne].
    + assert (Hlog : Z.log2 (two53 * 2 ^ e) = prec + e).
      { unfold two53. rewrite <- Z.pow_add_r by (unfold prec; lia).
        apply Z.log2_pow2. unfold prec; lia. }
      rewrite Hlog.
      replace (prec + e - (prec - 1)) with (e + 1) by lia.
      assert (Heq : two53 * 2 ^ e = 2 ^ (prec - 1) * 2 ^ (e + 1)).
      { rewrite Z.pow_add_r by lia.
        change two53 with (2 ^ (prec - 1) * 2). change (2 ^ 1) with 2. ring. }
      rewrite Heq.
      assert (Hpe1 : 0 < 2 ^ (e + 1)) by (apply Z.pow_pos_nonneg; lia).
      rewrite Z.div_mul by lia. rewrite Z.mod_mul by lia.
      replace (e + 1 - 1) with e by lia.
      destruct (Z.ltb_spec 0 (2 ^ e)); [| lia].
      cbn [orb]. unfold y. rewrite Heq. reflexivity.
    + assert (Hlog : Z.log2 (m * 2 ^ e) = prec - 1 + e).
      { apply Z.log2_unique; [unfold prec; lia |].
        rewrite Z.pow_add_r by (unfold prec; lia).
        replace (Z.succ (prec - 1 + e)) with (prec + e) by lia.
        rewrite Z.pow_add_r by (unfold prec; lia).
        fold two53. nia. }
      rewrite Hlog.
      replace (prec - 1 + e - (prec - 1)) with e by lia.
      rewrite Z.div_mul by lia. rewrite Z.mod_mul by lia.
      destruct (Z.ltb_spec 0 (2 ^ (e - 1))); [| lia].
      cbn [orb]. reflexivity.
Qed.

(** Every rounded value is a double. *)
Lemma round_double_representable z : representable (round_double z).
Proof. apply round_double_idem. Qed.

Lemma add_representable a b : representable (add a b).
Proof. apply round_double_idem. Qed.

Lemma sub_representable a b : representable (sub a b).
Proof. apply round_double_idem. Qed.

End NumberFacts.

(** ** Facts about the snapshot text *)

Section JsonFacts.

Import Json.

Lemma strip_prefix_app p s : strip_prefix p (p +:+ s) = Some s.
Proof.
  induction p as [| a p IH]; simpl; [reflexivity |].
  destruct (decide (a = a)); [exact IH | congruence].
Qed.

Lemma strip_last_app c s : strip_last c (s +:+ String c "") = Some s.
Proof.
  induction s as [| a s IH]; simpl.
  - destruct (decide (c = c)); [reflexivity | congruence].
  - destruct (s +:+ String c "") eqn:E.
    + destruct s; discriminate.
    + rewrite IH. reflexivity.
Qed.

Lemma to_int_proper z : Z.to_int z <> Decimal.Pos Decimal.Nil /\
                        Z.to_int z <> Decimal.Neg Decimal.Nil.
Proof.
  destruct z as [| p | p]; simpl; split; try discriminate;
    intros [= H]; exact (DecimalPos.Unsigned.to_uint_nonnil p H).
Qed.

(** Reading back a printed integer yields the integer. *)
Lemma parse_print_int z : parse_int (print_int z) = Some z.
Proof.
  unfold parse_int, print_int.
  destruct (to_int_proper z) as [Hp Hn].
  rewrite (NilZero.isi _ Hp Hn).
  rewrite DecimalZ.of_to.
  destruct (decide _) as [_ | Hne]; [reflexivity | congruence].
Qed.

(** A text that reads as an integer is the printed form of that integer. *)
Lemma parse_int_canonical s z : parse_int s = Some z -> s = print_int z.
Proof.
  unfold parse_int. destruct (NilZero.int_of_string s) as [d |]; [| discriminate].
  destruct (decide _) as [He | _]; [| discriminate].
  intros [= <-]. symmetry. exact He.
Qed.

Lemma snapshot_text_not_empty_object n : snapshot_text n <> "{}".
Proof. unfold snapshot_text, count_prefix, quoted. simpl. discriminate. Qed.

(** Reading back the snapshot of [n] yields an object whose only property
    is [count], holding the double nearest to [n]. *)
Lemma parse_snapshot_text n :
  parse (snapshot_text n) = Some {[ "count" := VNum (Number.round_double n) ]}.
Proof.
  unfold parse.
  destruct (decide _) as [E | _]; [destruct (snapshot_text_not_empty_object n E) |].
  unfold snapshot_text.
  rewrite strip_prefix_app. simpl.
  rewrite strip_last_app. simpl.
  rewrite parse_print_int. reflexivity.
Qed.

Lemma stringify_count (o : obj) n :
  o !! "count" = Some (VNum n) -> stringify o = snapshot_text n.
Proof. intros H. unfold stringify. rewrite H. reflexivity. Qed.

(** Whatever parses is an object with no property other than [count]. *)
Lemma parse_dom s o : parse s = Some o -> dom o ⊆ {[ "count" ]}.
Proof.
  unfold parse. destruct (decide _) as [_ | _].
  - intros [= <-]. set_solver.
  - intros H.
    destruct (strip_prefix count_prefix s) as [body |]; [| discriminate].
    simpl in H. destruct (strip_last "}" body) as [lit |]; [| discriminate].
    simpl in H. destruct (parse_int lit) as [n |]; [| discriminate].
    simpl in H. injection H as <-. rewrite dom_singleton_L. set_solver.
Qed.

Example parse_empty_text : parse "" = None.
Proof. reflexivity. Qed.

Example parse_truncated_text : parse (count_prefix +:+ "12") = None.
Proof. vm_compute. reflexivity. Qed.

End JsonFacts.

(** ** Facts about the store *)

Section StoreFacts.

Implicit Types (w : Store) (n : Z) (a : action) (l : list action).

Lemma count_lookup w n : count w = Some n <-> state w !! "count" = Some (VNum n).
Proof.
  unfold count, get_prop. split.
  - destruct (state w !! "count") as [[| m |] |]; simpl; try discriminate.
    intros [= ->]. reflexivity.
  - intros ->. reflexivity.
Qed.

Lemma count_updated n w : count (updated n w) = Some n.
Proof. apply count_lookup. unfold updated. simpl. apply lookup_insert_eq. Qed.

Lemma partialize_lookup (s : obj) : partialize s !! "count" = Some (get_prop s "count").
Proof. unfold partialize. apply lookup_singleton_eq. Qed.

(** The write of [persist] on a store whose count is [n]. *)
Lemma setItem_count w n :
  count w = Some n ->
  setItem w = mkStore (state w) (<[ name := snapshot_text n ]> (storage w))
                      (writes w ++ [(name, snapshot_text n)]).
Proof.
  intros H. apply count_lookup in H. unfold setItem, get.
  rewrite (stringify_count (partialize (state w)) n); [reflexivity |].
  rewrite partialize_lookup. unfold get_prop. rewrite H. reflexivity.
Qed.

(** What a call of [set] with an updater of the count does. *)
Lemma set_count (f : Z -> Z) (updater : obj -> option obj) w n :
  (forall s : obj, updater s =
     m ← as_number (get_prop s "count"); Some {[ "count" := VNum (f m) ]}) ->
  count w = Some n ->
  set updater w = Some (updated (f n) w).
Proof.
  intros Hup Hn. unfold set, setState, get. rewrite Hup.
  unfold count in Hn. rewrite Hn. simpl. f_equal.
  unfold assign. rewrite <- insert_union_singleton_l.
  rewrite (setItem_count _ (f n)); [reflexivity |].
  apply count_lookup. simpl. apply lookup_insert_eq.
Qed.

Lemma increment_updated w n :
  count w = Some n -> increment w = Some (updated (Number.add n 1) w).
Proof. apply (set_count (fun m => Number.add m 1)). reflexivity. Qed.

Lemma decrement_updated w n :
  count w = Some n -> decrement w = Some (updated (Number.sub n 1) w).
Proof. apply (set_count (fun m => Number.sub m 1)). reflexivity. Qed.

Lemma dispatch_updated a w n :
  count w = Some n -> dispatch a w = Some (updated (next_count a n) w).
Proof. destruct a; [apply increment_updated | apply decrement_updated]. Qed.

(** An action that completes was run on a state with a number under
    [count]. *)
Lemma dispatch_inv a w w' :
  dispatch a w = Some w' ->
  exists n, count w = Some n /\ w' = updated (next_count a n) w.
Proof.
  intros H. destruct (count w) as [n |] eqn:Hn.
  - exists n. split; [reflexivity |].
    rewrite (dispatch_updated a w n Hn) in H. congruence.
  - exfalso. unfold count in Hn.
    destruct a; unfold dispatch, increment, decrement, set, setState,
      increment_updater, decrement_updater, get in H;
      rewrite Hn in H; discriminate.
Qed.

(** The calls never fail on a state of the declared shape. *)
Lemma dispatch_total a w n : count w = Some n -> is_Some (dispatch a w).
Proof. intros H. rewrite (dispatch_updated a w n H). eauto. Qed.

(** The count of a store is a double after every call. *)
Lemma dispatch_representable a w w' n :
  dispatch a w = Some w' -> count w' = Some n -> Number.representable n.
Proof.
  intros H Hn. apply dispatch_inv in H as (m & _ & ->).
  rewrite count_updated in Hn. injection Hn as <-.
  destruct a; [apply add_representable | apply sub_representable].
Qed.

Lemma isEven_count w n : count w = Some n -> snd (isEven w) = Z.even n.
Proof.
  intros H. apply count_lookup in H. unfold isEven, get, get_prop.
  rewrite H. simpl. apply rem2_even.
Qed.

Lemma hydrate_absent (m : medium) : m !! name = None -> hydrate m = initial_state.
Proof. intros H. unfold hydrate. rewrite H. reflexivity. Qed.

Lemma hydrate_unparsable (m : medium) text :
  m !! name = Some text -> Json.parse text = None -> hydrate m = initial_state.
Proof. intros H Hp. unfold hydrate. rewrite H. simpl. rewrite Hp. reflexivity. Qed.

Lemma hydrate_snapshot (m : medium) n :
  m !! name = Some (snapshot_text n) ->
  hydrate m = <[ "count" := VNum (Number.round_double n) ]> initial_state.
Proof.
  intros H. unfold hydrate. rewrite H. simpl. rewrite parse_snapshot_text.
  unfold assign. rewrite <- insert_union_singleton_l. reflexivity.
Qed.

Lemma count_fresh : count fresh = Some 0.
Proof. reflexivity. Qed.

(** What parses is the empty object or an object with a double under
    [count]. *)
Lemma parse_inv text (o : obj) :
  Json.parse text = Some o ->
  o = ∅ \/ exists n, o = {[ "count" := VNum (Number.round_double n) ]}.
Proof.
  unfold Json.parse. destruct (decide _) as [_ | _].
  - intros [= <-]. left. reflexivity.
  - intros H.
    destruct (Json.strip_prefix Json.count_prefix text) as [body |]; [| discriminate].
    simpl in H. destruct (Json.strip_last "}" body) as [lit |]; [| discriminate].
    simpl in H. destruct (Json.parse_int lit) as [n |]; [| discriminate].
    simpl in H. injection H as <-. right. exists n. reflexivity.
Qed.

Lemma hydrate_cases (m : medium) :
  hydrate m = initial_state \/
  exists n, hydrate m = <[ "count" := VNum (Number.round_double n) ]> initial_state.
Proof.
  unfold hydrate. destruct (m !! name ≫= Json.parse) as [o |] eqn:E; [| left; reflexivity].
  destruct (m !! name) as [text |]; [| discriminate]. simpl in E.
  destruct (parse_inv text o E) as [-> | (n & ->)]; unfold assign.
  - left. apply (left_id_L ∅ (∪)).
  - right. exists n. rewrite <- insert_union_singleton_l. reflexivity.
Qed.

Lemma well_formed_create (m : medium) : well_formed (create m).
Proof.
  unfold well_formed, create, count. cbn [state].
  destruct (hydrate_cases m) as [-> | (n & ->)].
  - split; [exists 0; split; reflexivity |]. split; reflexivity.
  - split; [| split; reflexivity].
    exists (Number.round_double n). split.
    + unfold get_prop. rewrite lookup_insert_eq. reflexivity.
    + apply round_double_representable.
Qed.

Lemma well_formed_dispatch a w w' :
  well_formed w -> dispatch a w = Some w' -> well_formed w'.
Proof.
  intros (_ & He & Ha) H.
  pose proof (fun n => dispatch_representable a w w' n H) as Hr.
  apply dispatch_inv in H as (n & Hn & ->).
  split; [| split].
  - exists (next_count a n). split; [apply count_updated |].
    apply Hr. apply count_updated.
  - unfold updated. cbn [state]. rewrite lookup_insert_ne by discriminate. exact He.
  - unfold updated. cbn [state]. rewrite lookup_insert_ne by discriminate. exact Ha.
Qed.

(** Every store a program can hold has the declared shape, so the calls
    never leave it and never fail. *)
Lemma reachable_well_formed w : reachable w -> well_formed w.
Proof.
  induction 1 as [m | a w w' _ IH H].
  - apply well_formed_create.
  - apply (well_formed_dispatch a w w' IH H).
Qed.

Lemma reachable_dispatch_total a w : reachable w -> is_Some (dispatch a w).
Proof.
  intros H. apply reachable_well_formed in H as ((n & Hn & _) & _).
  apply (dispatch_total a w n Hn).
Qed.

(** The buttons reach the two actions through the object under
    [actions]. *)
Lemma click_increment w :
  well_formed w -> click "increment" w = increment w.
Proof.
  intros (_ & _ & Ha). unfold click, useCountActions, get_prop.
  rewrite Ha. reflexivity.
Qed.

Lemma click_decrement w :
  well_formed w -> click "decrement" w = decrement w.
Proof.
  intros (_ & _ & Ha). unfold click, useCountActions, get_prop.
  rewrite Ha. reflexivity.
Qed.

(** After an action, a restart finds the count the action left. *)
Lemma restart_after_dispatch a w w' :
  dispatch a w = Some w' -> count (restart w') = count w'.
Proof.
  intros H. pose proof (fun n => dispatch_representable a w w' n H) as Hr.
  apply dispatch_inv in H as (n & _ & ->).
  rewrite count_updated in *. apply count_lookup.
  unfold restart, create, updated. cbn [state storage].
  rewrite (hydrate_snapshot _ (next_count a n)) by apply lookup_insert_eq.
  rewrite (Hr _ eq_refl). apply lookup_insert_eq.
Qed.

End StoreFacts.

(** ** Sequences of calls *)

Section Runs.

Implicit Types (w : Store) (n c : Z) (a : action) (l : list action).

Lemma next_count_safe a c : Number.safe (c + step a) -> next_count a c = c + step a.
Proof.
  intros H. apply safe_representable in H.
  destruct a; unfold next_count, Number.add, Number.sub; simpl step in *.
  - exact H.
  - replace (c - 1) with (c + -1) by lia. exact H.
Qed.

Lemma run_app l1 l2 w : run (l1 ++ l2) w = run l1 w ≫= run l2.
Proof.
  revert w. induction l1 as [| a l1 IH]; intros w; simpl; [reflexivity |].
  destruct (dispatch a w) as [w1 |]; simpl; [apply IH | reflexivity].
Qed.

Lemma net_sum_app l1 l2 : net_sum (l1 ++ l2) = net_sum l1 + net_sum l2.
Proof.
  unfold net_sum. induction l1 as [| a l1 IH]; simpl; [reflexivity |].
  rewrite IH. lia.
Qed.

Lemma net_sum_repeat_increment k : net_sum (repeat Increment k) = Z.of_nat k.
Proof.
  unfold net_sum. induction k as [| k IH]; [reflexivity |].
  rewrite Nat2Z.inj_succ. cbn [repeat foldr step]. rewrite IH. lia.
Qed.

(** While the running count stays in range, the count follows the sum. *)
Lemma run_stays_safe l : forall w c,
  count w = Some c -> stays_safe c l ->
  exists w', run l w = Some w' /\ count w' = Some (c + net_sum l).
Proof.
  induction l as [| a l IH]; intros w c Hc Hs.
  - exists w. split; [reflexivity |]. rewrite Hc. f_equal. unfold net_sum. simpl. lia.
  - destruct Hs as [Ha Hs]. cbn [run].
    rewrite (dispatch_updated a w c Hc). cbn [mbind option_bind].
    rewrite (next_count_safe a c Ha).
    destruct (IH (updated (c + step a) w) (c + step a)) as (w' & Hrun & Hcount).
    + apply count_updated.
    + exact Hs.
    + exists w'. split; [exact Hrun |]. rewrite Hcount. f_equal.
      unfold net_sum. cbn [foldr]. lia.
Qed.

(** A running count cannot leave the range in fewer calls than its
    distance to the ends. *)
Lemma short_run_stays_safe l : forall c,
  Z.abs c + Z.of_nat (length l) <= Number.two53 -> stays_safe c l.
Proof.
  induction l as [| a l IH]; intros c H; [exact I |].
  cbn [length] in H. rewrite Nat2Z.inj_succ in H.
  split.
  - unfold Number.safe. destruct a; simpl; lia.
  - apply IH. destruct a; simpl; lia.
Qed.

End Runs.

(** ** The properties of the specification *)

Section Claims.

Implicit Types (w : Store) (n : Z) (a : action) (l : list action).

(** C1, as amended.  For every finite sequence of [increment] and
    [decrement] calls during which the running net sum stays between
    [-2^53] and [2^53], applied to a store whose count is [0]: the calls
    complete, the count is the net sum of the [+1] and [-1] steps, and
    [isEven()] is true exactly when that count is even. *)
Theorem count_is_net_sum l w :
  count w = Some 0 -> stays_safe 0 l ->
  exists w', run l w = Some w' /\
             count w' = Some (net_sum l) /\
             snd (isEven w') = Z.even (net_sum l).
Proof.
  intros Hc Hs.
  destruct (run_stays_safe l w 0 Hc Hs) as (w' & Hrun & Hcount).
  rewrite Z.add_0_l in Hcount.
  exists w'. split; [exact Hrun |]. split; [exact Hcount |].
  apply isEven_count. exact Hcount.
Qed.

Lemma count_is_net_sum_witness :
  exists w', run [Increment; Increment; Decrement] fresh = Some w' /\
             count w' = Some (net_sum [Increment; Increment; Decrement]) /\
             snd (isEven w') = Z.even (net_sum [Increment; Increment; Decrement]).
Proof.
  apply (count_is_net_sum [Increment; Increment; Decrement] fresh).
  - reflexivity.
  - apply short_run_stays_safe. vm_compute. discriminate.
Defined.

(** C1 as stated fails: [2^53 + 1] calls of [increment] on a fresh store
    leave the count at [2^53], one short of the net sum. *)
Lemma long_run_count_differs :
  exists w', run long_run fresh = Some w' /\
             count w' = Some Number.two53 /\
             net_sum long_run = Number.two53 + 1 /\
             count w' <> Some (net_sum long_run).
Proof.
  unfold long_run.
  assert (Hk : Z.of_nat (Z.to_nat Number.two53) = Number.two53).
  { apply Z2Nat.id. discriminate. }
  generalize dependent (Z.to_nat Number.two53). intros k Hk.
  destruct (run_stays_safe (repeat Increment k) fresh 0 count_fresh)
    as (w1 & Hrun & Hcount).
  { apply short_run_stays_safe. rewrite repeat_length, Hk. simpl. lia. }
  rewrite net_sum_repeat_increment, Hk, Z.add_0_l in Hcount.
  exists (updated (Number.add Number.two53 1) w1).
  assert (Hnet : net_sum (repeat Increment k ++ [Increment]) = Number.two53 + 1).
  { rewrite net_sum_app, net_sum_repeat_increment, Hk. reflexivity. }
  split; [| split; [| split]].
  - rewrite run_app, Hrun. cbn [mbind option_bind run dispatch].
    rewrite (increment_updated w1 _ Hcount). reflexivity.
  - rewrite count_updated, add_one_saturates. reflexivity.
  - exact Hnet.
  - rewrite count_updated, add_one_saturates, Hnet. intros H.
    vm_compute in H. discriminate H.
Qed.

(** C2.  For every store state whose count is the number [n], [isEven()]
    hands the store back unchanged, together with a boolean that is true
    if and only if [n % 2] is zero; it is a total function. *)
Theorem isEven_pure_query w n :
  count w = Some n ->
  fst (isEven w) = w /\
  (snd (isEven w) = true <-> Number.rem n 2 = 0) /\
  snd (isEven w) = Z.even n.
Proof.
  intros H. split; [reflexivity |]. split; [| apply isEven_count; exact H].
  apply count_lookup in H. unfold isEven, get, get_prop. rewrite H. simpl.
  unfold Number.strict_eq. apply Z.eqb_eq.
Qed.

Lemma isEven_pure_query_witness :
  fst (isEven at_five) = at_five /\
  (snd (isEven at_five) = true <-> Number.rem 5 2 = 0) /\
  snd (isEven at_five) = Z.even 5.
Proof. apply (isEven_pure_query at_five 5). reflexivity. Defined.

(** C3, as amended.  [increment()] takes no input and has no failure
    condition: on every store state whose count is a number [n] it
    completes and leaves a number under [count].  When
    [-2^53 <= n < 2^53] the resulting state has count [n + 1]. *)
Theorem increment_adds_one w n :
  count w = Some n ->
  exists w', increment w = Some w' /\
             is_Some (count w') /\
             (- Number.two53 <= n < Number.two53 -> count w' = Some (n + 1)).
Proof.
  intros Hc. exists (updated (Number.add n 1) w).
  split; [apply increment_updated; exact Hc |].
  rewrite count_updated. split; [eexists; reflexivity |].
  intros Hn. rewrite (add_one_exact n Hn). reflexivity.
Qed.

Lemma increment_adds_one_witness :
  exists w', increment fresh = Some w' /\
             is_Some (count w') /\
             count w' = Some (0 + 1).
Proof.
  destruct (increment_adds_one fresh 0) as (w' & Hrun & Hnum & Hcount).
  - reflexivity.
  - exists w'. split; [exact Hrun |]. split; [exact Hnum |].
    apply Hcount. split; [discriminate | reflexivity].
Defined.

(** C3 as stated fails: on the store restored with the count [2^53],
    [increment()] leaves the count at [2^53]. *)
Lemma increment_at_two53 :
  count at_two53 = Some Number.two53 /\
  exists w', increment at_two53 = Some w' /\
             count w' = Some Number.two53 /\
             count w' <> Some (Number.two53 + 1).
Proof.
  assert (Hc : count at_two53 = Some Number.two53).
  { apply count_lookup. unfold at_two53, create. cbn [state].
    rewrite (hydrate_snapshot _ Number.two53) by apply lookup_singleton_eq.
    rewrite round_double_two53. apply lookup_insert_eq. }
  split; [exact Hc |].
  exists (updated (Number.add Number.two53 1) at_two53). split; [| split].
  - apply increment_updated. exact Hc.
  - rewrite count_updated, add_one_saturates. reflexivity.
  - rewrite count_updated, add_one_saturates. intros H.
    vm_compute in H. discriminate H.
Qed.

(** C4.  From a count of [0], two calls of [decrement] leave the count at
    [-2] and [isEven()] true.  There is no floor at zero: from any count
    [n] with [-2^53 < n <= 0], [decrement] leaves the negative count
    [n - 1], and [isEven()] then tells the parity of that negative
    number. *)
Theorem decrement_goes_negative w v n :
  count w = Some 0 -> count v = Some n -> - Number.two53 < n <= 0 ->
  (exists w', run [Decrement; Decrement] w = Some w' /\
              count w' = Some (-2) /\ snd (isEven w') = true) /\
  (exists v', decrement v = Some v' /\ count v' = Some (n - 1) /\
              n - 1 < 0 /\ snd (isEven v') = Z.even (n - 1)).
Proof.
  intros Hw Hv Hn. split.
  - destruct (run_stays_safe [Decrement; Decrement] w 0 Hw) as (w' & Hrun & Hc).
    { apply short_run_stays_safe. vm_compute. discriminate. }
    exists w'. split; [exact Hrun |]. split; [exact Hc |].
    apply (isEven_count w' (-2) Hc).
  - exists (updated (Number.sub n 1) v).
    assert (Hc : count (updated (Number.sub n 1) v) = Some (n - 1)).
    { rewrite count_updated, sub_one_exact; [reflexivity |].
      assert (0 < Number.two53) by reflexivity. lia. }
    split; [apply decrement_updated; exact Hv |].
    split; [exact Hc |]. split; [lia |].
    apply isEven_count. exact Hc.
Qed.

Lemma decrement_goes_negative_witness :
  (exists w', run [Decrement; Decrement] fresh = Some w' /\
              count w' = Some (-2) /\ snd (isEven w') = true) /\
  (exists v', decrement fresh = Some v' /\ count v' = Some (0 - 1) /\
              0 - 1 < 0 /\ snd (isEven v') = Z.even (0 - 1)).
Proof.
  apply (decrement_goes_negative fresh fresh 0).
  - reflexivity.
  - reflexivity.
  - split; [reflexivity | discriminate].
Defined.

(** C5.  Round trip through the medium: when a store whose count is the
    double [n] writes its snapshot, a fresh store built on the medium it
    leaves starts with count [n], and with the functions and the actions
    object of a fresh state. *)
Theorem persist_round_trip w n :
  count w = Some n -> Number.representable n ->
  count (restart (setItem w)) = Some n /\
  state (restart (setItem w)) = <[ "count" := VNum n ]> initial_state.
Proof.
  intros Hc Hr.
  assert (Hs : state (restart (setItem w)) = <[ "count" := VNum n ]> initial_state).
  { unfold restart, create. cbn [state]. rewrite (setItem_count w n Hc). cbn [storage].
    rewrite (hydrate_snapshot _ n) by apply lookup_insert_eq.
    rewrite Hr. reflexivity. }
  split; [| exact Hs].
  apply count_lookup. rewrite Hs. apply lookup_insert_eq.
Qed.

Lemma persist_round_trip_witness :
  count (restart (setItem at_five)) = Some 5 /\
  state (restart (setItem at_five)) = <[ "count" := VNum 5 ]> initial_state.
Proof.
  apply (persist_round_trip at_five 5).
  - reflexivity.
  - reflexivity.
Defined.

(** C6.  When the medium holds no record under the name of the store, or
    holds a text that does not parse (the empty text among them), a fresh
    store starts from the initial state, with count [0]: the very state of
    the store built once the record is removed.  Construction is a total
    function. *)
Theorem default_fallback (m : medium) :
  m !! name = None \/ (exists text, m !! name = Some text /\ Json.parse text = None) ->
  count (create m) = Some 0 /\
  state (create m) = initial_state /\
  state (create m) = state (create (delete name m)).
Proof.
  intros H.
  assert (Hs : hydrate m = initial_state).
  { destruct H as [H | (text & H & Hp)].
    - apply hydrate_absent. exact H.
    - apply (hydrate_unparsable m text H Hp). }
  assert (Hd : hydrate (delete name m) = initial_state).
  { apply hydrate_absent. apply lookup_delete_eq. }
  unfold create, count. cbn [state]. rewrite Hs, Hd.
  split; [reflexivity |]. split; reflexivity.
Qed.

Lemma default_fallback_witness :
  (count (create ∅) = Some 0 /\
   state (create ∅) = initial_state /\
   state (create ∅) = state (create (delete name ∅))) /\
  (count (create {[ name := "" ]}) = Some 0 /\
   state (create {[ name := "" ]}) = initial_state /\
   state (create {[ name := "" ]}) = state (create (delete name {[ name := "" ]}))) /\
  (count (create {[ name := "{count:" ]}) = Some 0 /\
   state (create {[ name := "{count:" ]}) = initial_state /\
   state (create {[ name := "{count:" ]})
     = state (create (delete name {[ name := "{count:" ]}))).
Proof.
  split; [| split].
  - apply (default_fallback ∅). left. reflexivity.
  - apply (default_fallback {[ name := "" ]}). right. exists "".
    split; reflexivity.
  - apply (default_fallback {[ name := "{count:" ]}). right. exists "{count:".
    split; reflexivity.
Defined.

(** C7.  The snapshot [partialize] selects from any state object has the
    property [count], with the value the state has there, and no other
    property: neither [isEven] nor [actions].  What the write of [persist]
    puts on the medium is the text of that snapshot. *)
Theorem snapshot_only_count (s : obj) w :
  dom (partialize s) = {[ "count" ]} /\
  partialize s !! "count" = Some (get_prop s "count") /\
  partialize s !! "isEven" = None /\
  partialize s !! "actions" = None /\
  storage (setItem w) !! name = Some (Json.stringify (partialize (state w))) /\
  last (writes (setItem w)) = Some (name, Json.stringify (partialize (state w))).
Proof.
  unfold partialize.
  split; [apply dom_singleton_L |].
  split; [apply lookup_singleton_eq |].
  split; [apply lookup_singleton_ne; discriminate |].
  split; [apply lookup_singleton_ne; discriminate |].
  unfold setItem, get. cbn [storage writes].
  split; [apply lookup_insert_eq | apply last_snoc].
Qed.

(** C8.  Every call of [increment] or [decrement] that completes makes
    exactly one write: the list of writes grows by one entry, under the
    name ["countStore"], whose text is the snapshot of the new state, and
    that text replaces whatever the medium held under the name.  No other
    name of the medium changes. *)
Theorem one_write_per_action a w w' :
  dispatch a w = Some w' ->
  name = "countStore" /\
  writes w' = writes w ++ [(name, Json.stringify (partialize (state w')))] /\
  length (writes w') = S (length (writes w)) /\
  storage w' = <[ name := Json.stringify (partialize (state w')) ]> (storage w) /\
  storage w' !! name = Some (Json.stringify (partialize (state w'))) /\
  (forall k, k <> name -> storage w' !! k = storage w !! k).
Proof.
  intros H. apply dispatch_inv in H as (n & Hn & ->).
  set (m := next_count a n).
  assert (Ht : Json.stringify (partialize (state (updated m w))) = snapshot_text m).
  { apply stringify_count. rewrite partialize_lookup. unfold get_prop, updated.
    cbn [state]. rewrite lookup_insert_eq. reflexivity. }
  rewrite Ht. unfold updated. cbn [writes storage].
  split; [reflexivity |]. split; [reflexivity |].
  split; [rewrite length_app; simpl; lia |].
  split; [reflexivity |].
  split; [apply lookup_insert_eq |].
  intros k Hk. apply lookup_insert_ne. congruence.
Qed.

Lemma one_write_per_action_witness :
  let w' := updated (next_count Increment 0) fresh in
  name = "countStore" /\
  writes w' = writes fresh ++ [(name, Json.stringify (partialize (state w')))] /\
  length (writes w') = S (length (writes fresh)) /\
  storage w' = <[ name := Json.stringify (partialize (state w')) ]> (storage fresh) /\
  storage w' !! name = Some (Json.stringify (partialize (state w'))) /\
  (forall k, k <> name -> storage w' !! k = storage fresh !! k).
Proof.
  apply (one_write_per_action Increment fresh). reflexivity.
Defined.

(** C9.  Two calls of [isEven()] in a row, with no call of an action in
    between, return the same boolean, and the store is the same after as
    before. *)
Theorem isEven_twice w :
  let (w1, b1) := isEven w in
  let (w2, b2) := isEven w1 in
  b1 = b2 /\ w1 = w /\ w2 = w.
Proof. unfold isEven. split; [reflexivity |]. split; reflexivity. Qed.

(** C10.  A call of [increment] or [decrement] that completes replaces the
    property [count] only: every other property of the state, [actions] and
    [isEven] among them, holds the same value, hence the same reference, as
    before.  A component that selects [actions] is not rendered again. *)
Theorem action_changes_count_only a w w' :
  dispatch a w = Some w' ->
  (forall k, k <> "count" -> state w' !! k = state w !! k) /\
  get_prop (state w') "actions" = get_prop (state w) "actions" /\
  get_prop (state w') "isEven" = get_prop (state w) "isEven" /\
  renders_again useCountActions w w' = false.
Proof.
  intros H. apply dispatch_inv in H as (n & _ & ->).
  assert (Hk : forall k, k <> "count" ->
            state (updated (next_count a n) w) !! k = state w !! k).
  { intros k Hk. unfold updated. cbn [state]. apply lookup_insert_ne. congruence. }
  split; [exact Hk |].
  assert (Ha : get_prop (state (updated (next_count a n) w)) "actions"
               = get_prop (state w) "actions").
  { unfold get_prop. rewrite Hk by discriminate. reflexivity. }
  split; [exact Ha |].
  split; [unfold get_prop; rewrite Hk by discriminate; reflexivity |].
  unfold renders_again, useCountActions, Object_is. rewrite Ha.
  rewrite bool_decide_eq_true_2; reflexivity.
Qed.

Lemma action_changes_count_only_witness :
  let w' := updated (next_count Decrement 0) fresh in
  (forall k, k <> "count" -> state w' !! k = state fresh !! k) /\
  get_prop (state w') "actions" = get_prop (state fresh) "actions" /\
  get_prop (state w') "isEven" = get_prop (state fresh) "isEven" /\
  renders_again useCountActions fresh w' = false.
Proof.
  apply (action_changes_count_only Decrement fresh). reflexivity.
Defined.

End Claims.

(** ** Order and rounding *)

Section RoundingOrder.

Import Number.

Lemma round_double_opp z : round_double (- z) = - round_double z.
Proof.
  unfold round_double. rewrite Z.abs_opp, Z.sgn_opp.
  destruct (Z.abs z <? two53); [reflexivity | lia].
Qed.

(** The rounded value of [z >= 2^53] lies on the grid of step [2^e] around
    [z], on the side the remainder of [z] tells. *)
Lemma round_double_grid z :
  two53 <= z ->
  exists e q m,
    e = Z.log2 z - (prec - 1) /\ 1 <= e /\
    2 ^ (prec - 1) <= q < two53 /\
    q * 2 ^ e <= z < (q + 1) * 2 ^ e /\
    round_double z = m * 2 ^ e /\
    ((m = q /\ 2 * (z - q * 2 ^ e) <= 2 ^ e) \/
     (m = q + 1 /\ 2 ^ e <= 2 * (z - q * 2 ^ e))).
Proof.
  intros Hz. pose proof twoprec_pos as Hp.
  unfold round_double. rewrite (Z.abs_eq z) by lia. rewrite (Z.sgn_pos z) by lia.
  destruct (Z.ltb_spec z two53) as [Hlt | _]; [lia |].
  assert (Ha : 0 < z) by lia.
  pose proof (Z.log2_spec z Ha) as [Hlo Hhi].
  assert (HL : prec <= Z.log2 z).
  { apply Z.log2_le_pow2; [lia | exact Hz]. }
  set (e := Z.log2 z - (prec - 1)).
  assert (He : 1 <= e) by (unfold e, prec in *; lia).
  assert (Hpe : 0 < 2 ^ e) by (apply Z.pow_pos_nonneg; lia).
  assert (Hsplit : 2 ^ Z.log2 z = 2 ^ (prec - 1) * 2 ^ e).
  { rewrite <- Z.pow_add_r by (unfold prec; lia). f_equal. unfold e. lia. }
  assert (Hsplit' : 2 ^ Z.succ (Z.log2 z) = two53 * 2 ^ e).
  { unfold two53. rewrite <- Z.pow_add_r by (unfold prec; lia). f_equal. unfold e. lia. }
  assert (Hhalf : 2 ^ e = 2 * 2 ^ (e - 1)).
  { replace e with (1 + (e - 1)) at 1 by lia.
    rewrite Z.pow_add_r by lia. reflexivity. }
  pose proof (Z.div_mod z (2 ^ e) ltac:(lia)) as Hdm.
  pose proof (Z.mod_pos_bound z (2 ^ e) Hpe) as Hr.
  set (q := z / 2 ^ e) in *. set (r := z mod 2 ^ e) in *.
  assert (Hq : 2 ^ (prec - 1) <= q < two53) by nia.
  exists e, q.
  destruct (Z.ltb_spec r (2 ^ (e - 1))) as [H1 | H1]; cbn [orb].
  - exists q. repeat (split; try lia).
  - destruct (Z.eqb_spec r (2 ^ (e - 1))) as [H2 | H2]; cbn [andb].
    + destruct (Z.even q).
      * exists q. repeat (split; try lia).
      * exists (q + 1). repeat (split; try lia).
    + exists (q + 1). repeat (split; try lia).
Qed.

Lemma round_double_nonneg z : 0 <= z -> 0 <= round_double z.
Proof.
  intros Hz. destruct (Z.lt_ge_cases z two53) as [Hs | Hl].
  - rewrite round_double_small by lia. exact Hz.
  - destruct (round_double_grid z Hl) as (e & q & m & _ & He & Hq & _ & -> & Hm).
    assert (0 < 2 ^ e) by (apply Z.pow_pos_nonneg; lia).
    assert (0 < 2 ^ (prec - 1)) by reflexivity.
    destruct Hm as [[-> _] | [-> _]]; nia.
Qed.

Lemma round_double_mono_large a b :
  two53 <= a -> a <= b -> round_double a <= round_double b.
Proof.
  intros Ha Hab.
  destruct (Z.eq_dec a b) as [-> | Hneq]; [lia |].
  destruct (round_double_grid a Ha) as (ea & qa & ma & Hea & Hea1 & Hqa & Hza & Hra & Hma).
  destruct (round_double_grid b ltac:(lia)) as (eb & qb & mb & Heb & Heb1 & Hqb & Hzb & Hrb & Hmb).
  rewrite Hra, Hrb. clear Hra Hrb.
  assert (HL : Z.log2 a <= Z.log2 b) by (apply Z.log2_le_mono; exact Hab).
  assert (Hee : ea <= eb) by lia.
  clear Hea Heb HL.
  assert (Hpa : 0 < 2 ^ ea) by (apply Z.pow_pos_nonneg; lia).
  assert (Hp52 : 0 < 2 ^ (prec - 1)) by reflexivity.
  assert (Htwo : two53 = 2 * 2 ^ (prec - 1)) by reflexivity.
  assert (Hma' : ma <= qa + 1) by (destruct Hma as [[-> _] | [-> _]]; lia).
  assert (Hmb' : qb <= mb) by (destruct Hmb as [[-> _] | [-> _]]; lia).
  destruct (Z.eq_dec ea eb) as [<- | Hne].
  - remember (2 ^ ea) as P eqn:HeqP. clear HeqP.
    assert (Hqq : qa <= qb) by nia.
    destruct (Z.eq_dec qa qb) as [<- | Hq].
    + destruct Hma as [[-> Hra] | [-> Hra]], Hmb as [[-> Hrb] | [-> Hrb]];
        [lia | nia | exfalso; lia | lia].
    + assert (ma <= mb) by lia. nia.
  - assert (Hpow : 2 ^ (ea + 1) <= 2 ^ eb) by (apply Z.pow_le_mono_r; lia).
    rewrite Z.pow_add_r in Hpow by lia. change (2 ^ 1) with 2 in Hpow.
    clear Hma Hmb Hza Hzb.
    remember (2 ^ ea) as Pa eqn:HeqPa. remember (2 ^ eb) as Pb eqn:HeqPb.
    clear HeqPa HeqPb.
    assert (ma * Pa <= two53 * Pa) by nia.
    assert (2 ^ (prec - 1) * Pb <= mb * Pb) by nia.
    nia.
Qed.

Lemma round_double_mono_nonneg a b :
  0 <= a -> a <= b -> round_double a <= round_double b.
Proof.
  intros Ha Hab. destruct (Z.lt_ge_cases a two53) as [Hs | Hl].
  - rewrite (round_double_small a) by lia.
    destruct (Z.lt_ge_cases b two53) as [Hsb | Hlb].
    + rewrite (round_double_small b) by lia. exact Hab.
    + destruct (round_double_grid b Hlb) as (e & q & m & _ & He & Hq & _ & -> & Hm).
      assert (2 <= 2 ^ e).
      { change 2 with (2 ^ 1) at 1. apply Z.pow_le_mono_r; lia. }
      assert (two53 = 2 * 2 ^ (prec - 1)) by reflexivity.
      assert (0 < 2 ^ (prec - 1)) by reflexivity.
      destruct Hm as [[-> _] | [-> _]]; nia.
  - apply round_double_mono_large; assumption.
Qed.

(** Rounding keeps the order of the integers. *)
Lemma round_double_mono a b : a <= b -> round_double a <= round_double b.
Proof.
  intros Hab. destruct (Z.le_gt_cases 0 a) as [Ha | Ha].
  - apply round_double_mono_nonneg; assumption.
  - destruct (Z.le_gt_cases 0 b) as [Hb | Hb].
    + pose proof (round_double_nonneg b Hb).
      pose proof (round_double_nonneg (- a) ltac:(lia)) as H'.
      rewrite round_double_opp in H'. lia.
    + pose proof (round_double_mono_nonneg (- b) (- a) ltac:(lia) ltac:(lia)) as H'.
      rewrite !round_double_opp in H'. lia.
Qed.

End RoundingOrder.

(** ** More facts about sequences of calls *)

Section MoreRuns.

Implicit Types (w : Store) (n c : Z) (a : action) (l : list action).

(** In range, a call moves the count by its step or, at the end of the
    range it pushes against, not at all. *)
Lemma next_count_in_range a n :
  Number.safe n ->
  Number.safe (next_count a n) /\
  (next_count a n = n + step a \/ next_count a n = n).
Proof.
  intros H. split.
  - destruct a; [apply add_one_safe | apply sub_one_safe]; exact H.
  - unfold Number.safe in H. destruct a; cbn [next_count step].
    + destruct (Z.eq_dec n Number.two53) as [-> | Hne].
      * right. apply add_one_saturates.
      * left. apply add_one_exact. lia.
    + destruct (Z.eq_dec n (- Number.two53)) as [-> | Hne].
      * right. apply sub_one_saturates.
      * left. rewrite sub_one_exact by lia. lia.
Qed.

Lemma run_cons a l w : run (a :: l) w = dispatch a w ≫= run l.
Proof. reflexivity. Qed.

(** The state, the medium and the number of writes after a sequence that
    stays in range. *)
Lemma run_safe_spec l : forall w c,
  count w = Some c -> stays_safe c l ->
  exists w', run l w = Some w' /\
    state w' = <[ "count" := VNum (c + net_sum l) ]> (state w) /\
    (l <> [] ->
     storage w' = <[ name := snapshot_text (c + net_sum l) ]> (storage w)) /\
    length (writes w') = (length (writes w) + length l)%nat.
Proof.
  induction l as [| a l IH]; intros w c Hc Hs.
  - exists w. split; [reflexivity |]. split; [| split].
    + unfold net_sum. cbn [foldr]. rewrite Z.add_0_r.
      symmetry. apply insert_id. apply count_lookup. exact Hc.
    + intros H. destruct (H eq_refl).
    + cbn [length]. lia.
  - destruct Hs as [Ha Hs]. rewrite run_cons.
    rewrite (dispatch_updated a w c Hc). cbn [mbind option_bind].
    rewrite (next_count_safe a c Ha).
    destruct (IH (updated (c + step a) w) (c + step a) (count_updated _ _) Hs)
      as (w' & Hrun & Hst & Hsto & Hlen).
    assert (Hsum : c + step a + net_sum l = c + net_sum (a :: l)).
    { unfold net_sum. cbn [foldr]. lia. }
    rewrite Hsum in *.
    exists w'. split; [exact Hrun |]. split; [| split].
    + rewrite Hst. unfold updated. cbn [state]. apply insert_insert_eq.
    + intros _. destruct l as [| b l'].
      * cbn [run] in Hrun. injection Hrun as <-.
        unfold updated. cbn [storage]. rewrite <- Hsum.
        unfold net_sum. cbn [foldr]. rewrite Z.add_0_r. reflexivity.
      * rewrite Hsto by discriminate. unfold updated. cbn [storage].
        apply insert_insert_eq.
    + rewrite Hlen. unfold updated. cbn [writes length].
      rewrite length_app. cbn [length]. lia.
Qed.

Lemma net_sum_permutation l1 l2 : l1 ≡ₚ l2 -> net_sum l1 = net_sum l2.
Proof.
  unfold net_sum. induction 1 as [| a l1 l2 _ IH | a b l | l1 l2 l3 _ IH1 _ IH2];
    cbn [foldr]; lia.
Qed.

Lemma net_sum_parity l : Z.even (net_sum l) = Nat.even (length l).
Proof.
  induction l as [| a l IH]; [reflexivity |].
  change (net_sum (a :: l)) with (step a + net_sum l).
  rewrite Z.even_add, IH. cbn [length]. rewrite Nat.even_succ, <- Nat.negb_even.
  destruct a, (Nat.even (length l)); reflexivity.
Qed.

Lemma reachable_run l : forall w w',
  reachable w -> run l w = Some w' -> reachable w'.
Proof.
  induction l as [| a l IH]; intros w w' Hr H.
  - cbn [run] in H. injection H as <-. exact Hr.
  - rewrite run_cons in H.
    destruct (dispatch a w) as [w1 |] eqn:Hd; [| discriminate].
    apply (IH w1 w'); [| exact H].
    apply (reachable_dispatch a w w1 Hr Hd).
Qed.

Lemma reachable_run_total l : forall w, reachable w -> is_Some (run l w).
Proof.
  induction l as [| a l IH]; intros w Hr; [eexists; reflexivity |].
  rewrite run_cons.
  destruct (reachable_dispatch_total a w Hr) as [w1 Hd]. rewrite Hd.
  apply IH. apply (reachable_dispatch a w w1 Hr Hd).
Qed.

(** The state of a store a program can hold is the initial state with a
    double under [count]. *)
Lemma reachable_state w :
  reachable w ->
  exists n, Number.representable n /\ state w = <[ "count" := VNum n ]> initial_state.
Proof.
  induction 1 as [m | a w w' _ IH H].
  - unfold create. cbn [state]. destruct (hydrate_cases m) as [-> | (n & ->)].
    + exists 0. split; [reflexivity | reflexivity].
    + exists (Number.round_double n). split; [apply round_double_representable | reflexivity].
  - destruct IH as (n0 & _ & Hs).
    pose proof (fun n => dispatch_representable a w w' n H) as Hr.
    apply dispatch_inv in H as (n & _ & ->).
    exists (next_count a n). split; [apply Hr; apply count_updated |].
    unfold updated. cbn [state]. rewrite Hs. apply insert_insert_eq.
Qed.

End MoreRuns.

(** ** Further properties of the store *)

Section Further.

Implicit Types (w : Store) (n c : Z) (a : action) (l : list action).

(** X1.  For every store state whose count is the number [n] with
    [-2^53 < n <= 2^53], [decrement()] completes and leaves the count
    [n - 1]. *)
Theorem decrement_subtracts_one w n :
  count w = Some n -> - Number.two53 < n <= Number.two53 ->
  exists w', decrement w = Some w' /\ count w' = Some (n - 1).
Proof.
  intros Hc Hn. exists (updated (Number.sub n 1) w). split.
  - apply decrement_updated. exact Hc.
  - rewrite count_updated, (sub_one_exact n Hn). reflexivity.
Qed.

Lemma decrement_subtracts_one_witness :
  exists w', decrement at_five = Some w' /\ count w' = Some (5 - 1).
Proof.
  apply (decrement_subtracts_one at_five 5).
  - reflexivity.
  - split; [reflexivity | discriminate].
Defined.

(** X2.  [increment()] followed by [decrement()] gives back the state
    object the store had, when its count [n] satisfies
    [-2^53 <= n < 2^53]; two writes are made and the medium ends with the
    snapshot of [n]. *)
Theorem increment_then_decrement w n :
  count w = Some n -> - Number.two53 <= n < Number.two53 ->
  exists w', run [Increment; Decrement] w = Some w' /\
             state w' = state w /\
             storage w' !! name = Some (snapshot_text n) /\
             length (writes w') = S (S (length (writes w))).
Proof.
  intros Hc Hn.
  destruct (run_safe_spec [Increment; Decrement] w n Hc) as (w' & Hrun & Hst & Hsto & Hlen).
  { cbn [stays_safe step]. unfold Number.safe. lia. }
  replace (n + net_sum [Increment; Decrement]) with n in * by (unfold net_sum; simpl; lia).
  exists w'. split; [exact Hrun |]. split; [| split].
  - rewrite Hst. apply insert_id. apply count_lookup. exact Hc.
  - rewrite Hsto by discriminate. apply lookup_insert_eq.
  - rewrite Hlen. cbn [length]. lia.
Qed.

Lemma increment_then_decrement_witness :
  exists w', run [Increment; Decrement] fresh = Some w' /\
             state w' = state fresh /\
             storage w' !! name = Some (snapshot_text 0) /\
             length (writes w') = S (S (length (writes fresh))).
Proof.
  apply (increment_then_decrement fresh 0).
  - reflexivity.
  - split; [discriminate | reflexivity].
Defined.

(** X3.  [decrement()] followed by [increment()] gives back the state
    object the store had, when its count [n] satisfies
    [-2^53 < n <= 2^53]. *)
Theorem decrement_then_increment w n :
  count w = Some n -> - Number.two53 < n <= Number.two53 ->
  exists w', run [Decrement; Increment] w = Some w' /\
             state w' = state w /\
             storage w' !! name = Some (snapshot_text n).
Proof.
  intros Hc Hn.
  destruct (run_safe_spec [Decrement; Increment] w n Hc) as (w' & Hrun & Hst & Hsto & _).
  { cbn [stays_safe step]. unfold Number.safe. lia. }
  replace (n + net_sum [Decrement; Increment]) with n in * by (unfold net_sum; simpl; lia).
  exists w'. split; [exact Hrun |]. split.
  - rewrite Hst. apply insert_id. apply count_lookup. exact Hc.
  - rewrite Hsto by discriminate. apply lookup_insert_eq.
Qed.

Lemma decrement_then_increment_witness :
  exists w', run [Decrement; Increment] at_five = Some w' /\
             state w' = state at_five /\
             storage w' !! name = Some (snapshot_text 5).
Proof.
  apply (decrement_then_increment at_five 5).
  - reflexivity.
  - split; [reflexivity | discriminate].
Defined.

(** X4.  From a count between [-2^53] and [2^53], every sequence of calls
    completes and leaves a count in that range, no further from the
    starting count than the number of calls. *)
Theorem run_stays_in_range l : forall w n,
  count w = Some n -> Number.safe n ->
  exists w' m, run l w = Some w' /\ count w' = Some m /\
               Number.safe m /\ Z.abs (m - n) <= Z.of_nat (length l).
Proof.
  induction l as [| a l IH]; intros w n Hc Hs.
  - exists w, n. split; [reflexivity |]. split; [exact Hc |].
    split; [exact Hs |]. cbn [length]. lia.
  - rewrite run_cons, (dispatch_updated a w n Hc). cbn [mbind option_bind].
    destruct (next_count_in_range a n Hs) as [Hs' Hstep].
    destruct (IH (updated (next_count a n) w) (next_count a n)
                 (count_updated _ _) Hs') as (w' & m & Hrun & Hm & Hsm & Hd).
    exists w', m. split; [exact Hrun |]. split; [exact Hm |].
    split; [exact Hsm |]. rewrite length_cons, Nat2Z.inj_succ.
    destruct a; cbn [step] in Hstep; lia.
Qed.

Lemma run_stays_in_range_witness :
  exists w' m, run [Decrement; Decrement; Increment] at_five = Some w' /\
               count w' = Some m /\ Number.safe m /\
               Z.abs (m - 5) <= Z.of_nat (length [Decrement; Decrement; Increment]).
Proof.
  apply (run_stays_in_range [Decrement; Decrement; Increment] at_five 5).
  - reflexivity.
  - split; [discriminate | discriminate].
Defined.

(** X5.  From any count [c], while the running count stays between
    [-2^53] and [2^53], a sequence of calls leaves the state object with
    [c] plus the net sum under [count] and nothing else changed, and
    [isEven()] tells the parity of that number. *)
Theorem run_from_count l w c :
  count w = Some c -> stays_safe c l ->
  exists w', run l w = Some w' /\
             count w' = Some (c + net_sum l) /\
             state w' = <[ "count" := VNum (c + net_sum l) ]> (state w) /\
             snd (isEven w') = Z.even (c + net_sum l).
Proof.
  intros Hc Hs.
  destruct (run_safe_spec l w c Hc Hs) as (w' & Hrun & Hst & _ & _).
  assert (Hc' : count w' = Some (c + net_sum l)).
  { apply count_lookup. rewrite Hst. apply lookup_insert_eq. }
  exists w'. split; [exact Hrun |]. split; [exact Hc' |].
  split; [exact Hst |]. apply isEven_count. exact Hc'.
Qed.

Lemma run_from_count_witness :
  exists w', run [Decrement; Increment; Increment] at_five = Some w' /\
             count w' = Some (5 + net_sum [Decrement; Increment; Increment]) /\
             state w' = <[ "count" := VNum (5 + net_sum [Decrement; Increment; Increment]) ]>
                          (state at_five) /\
             snd (isEven w') = Z.even (5 + net_sum [Decrement; Increment; Increment]).
Proof.
  apply (run_from_count [Decrement; Increment; Increment] at_five 5).
  - reflexivity.
  - apply short_run_stays_safe. vm_compute. discriminate.
Defined.

(** X6.  The order of the calls does not matter while the running count
    stays in range: two sequences that are permutations of each other
    leave the same state object and the same medium. *)
Theorem run_order_irrelevant l1 l2 w c :
  l1 ≡ₚ l2 -> count w = Some c -> stays_safe c l1 -> stays_safe c l2 ->
  exists w1 w2, run l1 w = Some w1 /\ run l2 w = Some w2 /\
                state w1 = state w2 /\ storage w1 = storage w2.
Proof.
  intros Hp Hc H1 H2.
  destruct (run_safe_spec l1 w c Hc H1) as (w1 & Hr1 & Hs1 & Hm1 & _).
  destruct (run_safe_spec l2 w c Hc H2) as (w2 & Hr2 & Hs2 & Hm2 & _).
  exists w1, w2. split; [exact Hr1 |]. split; [exact Hr2 |].
  rewrite (net_sum_permutation l1 l2 Hp) in *.
  split; [rewrite Hs1, Hs2; reflexivity |].
  destruct l1 as [| a l1'].
  - apply Permutation_nil_l in Hp. subst l2.
    cbn [run] in Hr1, Hr2. congruence.
  - rewrite Hm1 by discriminate. rewrite Hm2; [reflexivity |].
    intros ->. apply Permutation_nil_r in Hp. discriminate.
Qed.

Lemma run_order_irrelevant_witness :
  exists w1 w2, run [Increment; Decrement; Decrement] fresh = Some w1 /\
                run [Decrement; Decrement; Increment] fresh = Some w2 /\
                state w1 = state w2 /\ storage w1 = storage w2.
Proof.
  apply (run_order_irrelevant [Increment; Decrement; Decrement]
           [Decrement; Decrement; Increment] fresh 0).
  - apply (Permutation_cons_append [Decrement; Decrement] Increment).
  - reflexivity.
  - apply short_run_stays_safe. vm_compute. discriminate.
  - apply short_run_stays_safe. vm_compute. discriminate.
Defined.

(** X7.  While the running count stays in range, [isEven()] after a
    sequence of calls is [isEven()] before it, flipped when the number of
    calls is odd. *)
Theorem parity_after_run l w c :
  count w = Some c -> stays_safe c l ->
  exists w', run l w = Some w' /\
             snd (isEven w') = xorb (snd (isEven w)) (Nat.odd (length l)).
Proof.
  intros Hc Hs.
  destruct (run_safe_spec l w c Hc Hs) as (w' & Hrun & Hst & _ & _).
  exists w'. split; [exact Hrun |].
  assert (Hc' : count w' = Some (c + net_sum l)).
  { apply count_lookup. rewrite Hst. apply lookup_insert_eq. }
  rewrite (isEven_count w' _ Hc'), (isEven_count w c Hc).
  rewrite Z.even_add, net_sum_parity, <- Nat.negb_even.
  destruct (Z.even c), (Nat.even (length l)); reflexivity.
Qed.

Lemma parity_after_run_witness :
  exists w', run [Increment; Increment; Increment] at_five = Some w' /\
             snd (isEven w')
             = xorb (snd (isEven at_five)) (Nat.odd (length [Increment; Increment; Increment])).
Proof.
  apply (parity_after_run [Increment; Increment; Increment] at_five 5).
  - reflexivity.
  - apply short_run_stays_safe. vm_compute. discriminate.
Defined.

(** X8.  A call whose result stays in range changes what both selectors of
    the display yield: [useCount] selects a different number, so its
    component is rendered again, and [useIsEven] selects the opposite
    boolean. *)
Theorem display_changes a w w' n :
  dispatch a w = Some w' -> count w = Some n -> Number.safe (n + step a) ->
  useCount w' = VNum (n + step a) /\
  renders_again useCount w w' = true /\
  useIsEven w' = negb (useIsEven w).
Proof.
  intros H Hc Hs.
  rewrite (dispatch_updated a w n Hc) in H. injection H as <-.
  rewrite (next_count_safe a n Hs).
  assert (Hu : useCount (updated (n + step a) w) = VNum (n + step a)).
  { unfold useCount, get_prop, updated. cbn [state]. rewrite lookup_insert_eq. reflexivity. }
  assert (Hw : useCount w = VNum n).
  { unfold useCount, get_prop. apply count_lookup in Hc. rewrite Hc. reflexivity. }
  split; [exact Hu |]. split.
  - unfold renders_again, Object_is. rewrite Hu, Hw.
    rewrite bool_decide_eq_false_2; [reflexivity |].
    intros [= E]. destruct a; cbn [step] in E; lia.
  - unfold useIsEven.
    rewrite (isEven_count _ _ (count_updated (n + step a) w)), (isEven_count w n Hc).
    rewrite Z.even_add. destruct a, (Z.even n); reflexivity.
Qed.

Lemma display_changes_witness :
  let w' := updated (next_count Increment 5) at_five in
  useCount w' = VNum (5 + step Increment) /\
  renders_again useCount at_five w' = true /\
  useIsEven w' = negb (useIsEven at_five).
Proof.
  apply (display_changes Increment at_five).
  - reflexivity.
  - reflexivity.
  - split; discriminate.
Defined.

(** X9.  A sequence of calls that completes makes one write per call, each
    under the [name] of the persist options; no other name of the medium
    changes, and
    after a non-empty sequence the record and the last write are the
    snapshot of the final state. *)
Theorem run_writes l : forall w w',
  run l w = Some w' ->
  exists new,
    writes w' = writes w ++ new /\
    length new = length l /\
    Forall (fun entry => entry.1 = name) new /\
    (forall k, k <> name -> storage w' !! k = storage w !! k) /\
    (l <> [] ->
     last new = Some (name, Json.stringify (partialize (state w'))) /\
     storage w' !! name = Some (Json.stringify (partialize (state w')))).
Proof.
  induction l as [| a l IH]; intros w w' H.
  - cbn [run] in H. injection H as <-. exists [].
    split; [rewrite app_nil_r; reflexivity |]. split; [reflexivity |].
    split; [constructor |]. split; [reflexivity |].
    intros Hne. destruct (Hne eq_refl).
  - rewrite run_cons in H.
    destruct (dispatch a w) as [w1 |] eqn:Hd; [| discriminate].
    cbn [mbind option_bind] in H.
    destruct (IH w1 w' H) as (new & Hw & Hlen & Hall & Hother & Hlast).
    apply dispatch_inv in Hd as (n & Hn & ->).
    set (m := next_count a n) in *.
    exists ((name, snapshot_text m) :: new).
    split; [| split; [| split; [| split]]].
    + rewrite Hw. unfold updated. cbn [writes]. rewrite <- app_assoc. reflexivity.
    + cbn [length]. rewrite Hlen. reflexivity.
    + constructor; [reflexivity | exact Hall].
    + intros k Hk. rewrite (Hother k Hk). unfold updated. cbn [storage].
      apply lookup_insert_ne. congruence.
    + intros _. destruct l as [| b l'].
      * cbn [run] in H. injection H as <-.
        destruct new; [| discriminate].
        assert (Ht : Json.stringify (partialize (state (updated m w))) = snapshot_text m).
        { apply stringify_count. rewrite partialize_lookup. unfold get_prop, updated.
          cbn [state]. rewrite lookup_insert_eq. reflexivity. }
        rewrite Ht. split; [reflexivity |].
        unfold updated. cbn [storage]. apply lookup_insert_eq.
      * destruct (Hlast ltac:(discriminate)) as [Hl Hs]. split; [| exact Hs].
        destruct new as [| e new']; [discriminate |]. exact Hl.
Qed.

Lemma run_writes_witness :
  let w' := updated (next_count Decrement (next_count Increment 0))
                    (updated (next_count Increment 0) fresh) in
  exists new,
    writes w' = writes fresh ++ new /\
    length new = length [Increment; Decrement] /\
    Forall (fun entry => entry.1 = name) new /\
    (forall k, k <> name -> storage w' !! k = storage fresh !! k) /\
    ([Increment; Decrement] <> [] ->
     last new = Some (name, Json.stringify (partialize (state w'))) /\
     storage w' !! name = Some (Json.stringify (partialize (state w')))).
Proof. apply (run_writes [Increment; Decrement] fresh). reflexivity. Defined.

(** X10.  Every store built by [create] and moved on by calls has a state
    with exactly the properties [count], [isEven] and [actions], a double
    under [count] and the creator's function and object under the other
    two; every sequence of calls completes on it. *)
Theorem reachable_shape w :
  reachable w ->
  dom (state w) = {[ "count"; "isEven"; "actions" ]} /\
  (exists n, count w = Some n /\ Number.representable n) /\
  get_prop (state w) "isEven" = VRef IsEvenFn /\
  get_prop (state w) "actions" = VRef ActionsObj /\
  (forall l, is_Some (run l w)).
Proof.
  intros Hr.
  destruct (reachable_state w Hr) as (n & Hn & Hs).
  split; [| split; [| split; [| split]]].
  - rewrite Hs. unfold initial_state. rewrite !dom_insert_L, dom_singleton_L. set_solver.
  - exists n. split; [| exact Hn]. apply count_lookup. rewrite Hs. apply lookup_insert_eq.
  - rewrite Hs. reflexivity.
  - rewrite Hs. reflexivity.
  - intros l. apply reachable_run_total. exact Hr.
Qed.

Lemma reachable_shape_witness :
  dom (state at_two53) = {[ "count"; "isEven"; "actions" ]} /\
  (exists n, count at_two53 = Some n /\ Number.representable n) /\
  get_prop (state at_two53) "isEven" = VRef IsEvenFn /\
  get_prop (state at_two53) "actions" = VRef ActionsObj /\
  (forall l, is_Some (run l at_two53)).
Proof. apply (reachable_shape at_two53). apply reachable_create. Defined.

(** X11.  The handlers a component takes from [useCountActions] stay
    good: after any sequence of calls on a store a program can hold, the
    selector yields the same object, and its [increment] and [decrement]
    are the two actions of the store, which complete. *)
Theorem handlers_stay_good l w w' :
  reachable w -> run l w = Some w' ->
  useCountActions w' = useCountActions w /\
  click "increment" w' = increment w' /\
  click "decrement" w' = decrement w' /\
  is_Some (click "increment" w') /\
  is_Some (click "decrement" w').
Proof.
  intros Hr Hrun.
  pose proof (reachable_run l w w' Hr Hrun) as Hr'.
  pose proof (reachable_well_formed w Hr) as (_ & _ & Ha).
  pose proof (reachable_well_formed w' Hr') as Hwf'.
  pose proof Hwf' as (_ & _ & Ha').
  split; [unfold useCountActions, get_prop; rewrite Ha, Ha'; reflexivity |].
  rewrite (click_increment w' Hwf'), (click_decrement w' Hwf').
  split; [reflexivity |]. split; [reflexivity |]. split.
  - apply (reachable_dispatch_total Increment w' Hr').
  - apply (reachable_dispatch_total Decrement w' Hr').
Qed.

Lemma handlers_stay_good_witness :
  let w' := updated (next_count Increment 0) fresh in
  useCountActions w' = useCountActions fresh /\
  click "increment" w' = increment w' /\
  click "decrement" w' = decrement w' /\
  is_Some (click "increment" w') /\
  is_Some (click "decrement" w').
Proof.
  apply (handlers_stay_good [Increment] fresh).
  - apply reachable_create.
  - reflexivity.
Defined.

(** X12.  After a non-empty sequence of calls that completes, on any
    store, a restart finds the count the sequence left. *)
Theorem restart_after_run l : forall w w',
  l <> [] -> run l w = Some w' -> count (restart w') = count w'.
Proof.
  induction l as [| a l IH]; intros w w' Hne H; [destruct (Hne eq_refl) |].
  rewrite run_cons in H.
  destruct (dispatch a w) as [w1 |] eqn:Hd; [| discriminate].
  cbn [mbind option_bind] in H. destruct l as [| b l'].
  - cbn [run] in H. injection H as <-. apply (restart_after_dispatch a w w1 Hd).
  - apply (IH w1 w'); [discriminate | exact H].
Qed.

Lemma restart_after_run_witness :
  let w' := updated (next_count Decrement 5) at_five in
  count (restart w') = count w'.
Proof.
  apply (restart_after_run [Decrement] at_five).
  - discriminate.
  - reflexivity.
Defined.

(** X13.  On every state whose count is a double, of any size,
    [increment()] never lowers the count and [decrement()] never raises
    it, and the count stays a double. *)
Theorem actions_keep_order w n :
  count w = Some n -> Number.representable n ->
  exists wi wd mi md,
    increment w = Some wi /\ count wi = Some mi /\ n <= mi /\
    decrement w = Some wd /\ count wd = Some md /\ md <= n /\
    Number.representable mi /\ Number.representable md.
Proof.
  intros Hc Hr. unfold Number.representable in Hr.
  pose proof (round_double_mono n (n + 1) ltac:(lia)) as Hup.
  pose proof (round_double_mono (n - 1) n ltac:(lia)) as Hdown.
  rewrite Hr in Hup, Hdown.
  exists (updated (Number.add n 1) w), (updated (Number.sub n 1) w),
    (Number.add n 1), (Number.sub n 1).
  split; [apply increment_updated; exact Hc |].
  split; [apply count_updated |].
  split; [exact Hup |].
  split; [apply decrement_updated; exact Hc |].
  split; [apply count_updated |].
  split; [exact Hdown |].
  split; [apply add_representable | apply sub_representable].
Qed.

Lemma actions_keep_order_witness :
  exists wi wd mi md,
    increment at_two53 = Some wi /\ count wi = Some mi /\ Number.two53 <= mi /\
    decrement at_two53 = Some wd /\ count wd = Some md /\ md <= Number.two53 /\
    Number.representable mi /\ Number.representable md.
Proof.
  apply (actions_keep_order at_two53 Number.two53).
  - reflexivity.
  - reflexivity.
Defined.

(** X14.  Repeated calls push the count to the end of the range and no
    further: from a count [n] between [-2^53] and [2^53], [k] calls of
    [increment] leave the smaller of [n + k] and [2^53], and [k] calls of
    [decrement] the larger of [n - k] and [-2^53]. *)
Theorem repeated_calls_saturate k : forall w n,
  count w = Some n -> Number.safe n ->
  (exists w', run (repeat Increment k) w = Some w' /\
              count w' = Some (Z.min (n + Z.of_nat k) Number.two53)) /\
  (exists w', run (repeat Decrement k) w = Some w' /\
              count w' = Some (Z.max (n - Z.of_nat k) (- Number.two53))).
Proof.
  induction k as [| k IH]; intros w n Hc Hs.
  - unfold Number.safe in Hs. split; exists w; (split; [reflexivity |]);
      rewrite Hc; f_equal; cbn [Z.of_nat]; lia.
  - rewrite Nat2Z.inj_succ. cbn [repeat]. rewrite !run_cons.
    rewrite (dispatch_updated Increment w n Hc), (dispatch_updated Decrement w n Hc).
    cbn [mbind option_bind].
    destruct (next_count_in_range Increment n Hs) as [Hsi Hi].
    destruct (next_count_in_range Decrement n Hs) as [Hsd Hd].
    destruct (IH (updated (next_count Increment n) w) _ (count_updated _ _) Hsi)
      as [(wi & Hri & Hci) _].
    destruct (IH (updated (next_count Decrement n) w) _ (count_updated _ _) Hsd)
      as [_ (wd & Hrd & Hcd)].
    unfold Number.safe in *. cbn [step] in Hi, Hd. split.
    + exists wi. split; [exact Hri |]. rewrite Hci. f_equal.
      destruct Hi as [Hi | Hi]; rewrite Hi in *; [lia |].
      assert (n = Number.two53).
      { destruct (Z.eq_dec n Number.two53) as [E | E]; [exact E |].
        cbn [next_count] in Hi. rewrite add_one_exact in Hi by lia. lia. }
      lia.
    + exists wd. split; [exact Hrd |]. rewrite Hcd. f_equal.
      destruct Hd as [Hd | Hd]; rewrite Hd in *; [lia |].
      assert (n = - Number.two53).
      { destruct (Z.eq_dec n (- Number.two53)) as [E | E]; [exact E |].
        cbn [next_count] in Hd. rewrite sub_one_exact in Hd by lia. lia. }
      lia.
Qed.

Lemma repeated_calls_saturate_witness :
  (exists w', run (repeat Increment 3) at_two53 = Some w' /\
              count w' = Some (Z.min (Number.two53 + Z.of_nat 3) Number.two53)) /\
  (exists w', run (repeat Decrement 3) at_two53 = Some w' /\
              count w' = Some (Z.max (Number.two53 - Z.of_nat 3) (- Number.two53))).
Proof.
  apply (repeated_calls_saturate 3 at_two53 Number.two53).
  - reflexivity.
  - split; discriminate.
Defined.

End Further.
